(** * audio/play.go: playback tracking, as a state machine over select outcomes

    The package plays a media URI on an ARI [Player] and follows the
    playback through the events [PlaybackStarted] and [PlaybackFinished].
    [PlayAsync] subscribes, issues the command and starts a goroutine made of
    two [for { select { ... } }] loops; [Play] waits for that goroutine or for
    the caller's context.

    Embedding.  A channel of type [chan struct{}] that is only ever closed is a
    [bool] (closed or not); closing a closed channel panics, as in Go.  One
    iteration of a loop is one resolution of its [select]: the resolved case is
    an input ([Sel]) and the loop body is a function of it.  Which cases a
    [select] may resolve to is a relation over a [World] that holds the
    subscription's queue, the clock and the timers' deadlines: Go chooses
    among the cases that can proceed without any order of preference.
    Deferred calls are kept on a stack and run, last in first out, on return
    and on panic.  Calls to [Logger] have no effect on the playback and are
    left out. *)

From Stdlib Require Import String List Bool Arith NArith Lia.
Import ListNotations.
Open Scope string_scope.
Open Scope list_scope.

(** ** Errors *)

(** [type timeoutErr struct { msg string }] *)
Record timeoutErr : Type := { msg : string }.

(** [func (err timeoutErr) Error() string] *)
Definition Error (err : timeoutErr) : string := msg err.

(** [func (err timeoutErr) Timeout() bool] *)
Definition Timeout (err : timeoutErr) : bool := true.

(** The values of Go's interface [error] that flow through this file: a
    [timeoutErr], or an error made by a collaborator (the player, the playback
    handle, the context).  For the latter, [hasTimeout] is [Some b] when its
    dynamic type has a method [Timeout() bool] that returns [b]. *)
Inductive error : Type :=
| ErrTimeout (e : timeoutErr)
| ErrForeign (text : string) (hasTimeout : option bool).

(** The caller's query: [t, ok := err.(interface{ Timeout() bool }); ok && t.Timeout()]. *)
Definition isTimeout (e : error) : bool :=
  match e with
  | ErrTimeout t => Timeout t
  | ErrForeign _ (Some b) => b
  | ErrForeign _ None => false
  end.

(** ** Constants of the package *)

Definition AllDTMF : string := "0123456789ABCD*#".

(** [time.Duration] counts nanoseconds. *)
Definition Second : N := 1000000000%N.
Definition Minute : N := (60 * Second)%N.
Definition PlaybackStartTimeout : N := (1 * Second)%N.
Definition MaxPlaybackTime : N := (10 * Minute)%N.

(** ** Events *)

Record PlaybackData : Type := { ID : string }.

(** The dynamic type of a non-nil [ari.Event], with the payload the code reads. *)
Inductive EventDyn : Type :=
| DynPlaybackStarted (Playback : PlaybackData)
| DynPlaybackFinished (Playback : PlaybackData)
| DynOther.

(** A non-nil event: what [v.GetType()] answers, and the dynamic type that the
    assertions to [v2.PlaybackStarted] and to [v2.PlaybackFinished] inspect. *)
Record Event : Type := { GetType : string; dyn : EventDyn }.

(** The assertion of [v] to a pointer to [v2.PlaybackStarted], in its
    one-result form: [None] is the run-time panic. *)
Definition assertPlaybackStarted (v : Event) : option PlaybackData :=
  match dyn v with
  | DynPlaybackStarted d => Some d
  | _ => None
  end.

(** The assertion of [v] to a pointer to [v2.PlaybackFinished]. *)
Definition assertPlaybackFinished (v : Event) : option PlaybackData :=
  match dyn v with
  | DynPlaybackFinished d => Some d
  | _ => None
  end.

(** The events the bus decodes for the two subscribed types. *)
Definition evStarted (id : string) : Event :=
  {| GetType := "PlaybackStarted"; dyn := DynPlaybackStarted {| ID := id |} |}.
Definition evFinished (id : string) : Event :=
  {| GetType := "PlaybackFinished"; dyn := DynPlaybackFinished {| ID := id |} |}.

(** ** Collaborators *)

(** [h.Data()] of the handle that [p.Play] returns. *)
Record PlaybackHandle : Type := { Data : PlaybackData + error }.

(** [p.Play(mediaURI)] *)
Record Player : Type := { play : string -> PlaybackHandle + error }.

(** [context.Context]: [ctx.Done()] is closed exactly when [ctx.Err()] is not nil. *)
Inductive Context : Type :=
| Active
| Done (err : error).

(** ** The playback object and the goroutine's state *)

(** The fields of [Playback] that play.go assigns.  Channels are [true] once
    closed; [err] is [None] for Go's nil. *)
Record Playback : Type := {
  handle : PlaybackHandle;
  stopCh : bool;
  startCh : bool;
  quitCh : bool;
  err : option error
}.

Inductive PanicCause : Type :=
| CloseOfClosedChannel
| FailedTypeAssertion.

Inductive Phase : Type :=
| AwaitingStart            (* in PlaybackStartLoop *)
| Playing                  (* in PlaybackStopLoop *)
| Returned                 (* the goroutine returned *)
| Panicked (c : PanicCause).

(** What the goroutine and its callers do to the shared objects, in order. *)
Inductive Action : Type :=
| ActSubscribe             (* bus.Subscribe(...) *)
| ActSubCancel             (* s.Cancel() *)
| ActCloseStart            (* close(pb.startCh) *)
| ActCloseStop             (* close(pb.stopCh) *)
| ActSetErr (e : error).   (* pb.err = ... *)

Inductive Deferred : Type :=
| DeferSubCancel           (* defer s.Cancel() *)
| DeferCloseStop.          (* defer close(pb.stopCh) *)

Record Tracker : Type := {
  pb : Playback;
  id : string;               (* id := data.ID *)
  phase : Phase;
  defers : list Deferred;    (* most recent first *)
  log : list Action          (* oldest first *)
}.

Definition Action_eqb (a b : Action) : bool :=
  match a, b with
  | ActSubscribe, ActSubscribe => true
  | ActSubCancel, ActSubCancel => true
  | ActCloseStart, ActCloseStart => true
  | ActCloseStop, ActCloseStop => true
  | ActSetErr _, ActSetErr _ => true
  | _, _ => false
  end.

(** How many times an action of the kind of [a] was performed. *)
Definition times (a : Action) (l : list Action) : nat :=
  length (filter (Action_eqb a) l).

(** ** Statements of the goroutine *)

(** How a statement ends. *)
Inductive Ctl : Type :=
| Next (t : Tracker)          (* falls through; at the end of a loop body: continue *)
| Break (t : Tracker)         (* break PlaybackStartLoop *)
| Return (t : Tracker)
| Panic (c : PanicCause) (t : Tracker).

Definition Stmt : Type := Tracker -> Ctl.

Definition seq (s1 s2 : Stmt) : Stmt :=
  fun t => match s1 t with
           | Next t' => s2 t'
           | r => r
           end.

Declare Scope go_scope.
Delimit Scope go_scope with go.
Infix ">>" := seq (at level 61, left associativity) : go_scope.
Open Scope go_scope.

Definition logged (a : Action) (t : Tracker) (p : Playback) : Tracker :=
  {| pb := p; id := id t; phase := phase t; defers := defers t;
     log := log t ++ [a] |}.

(** [close(pb.startCh)] *)
Definition close_startCh : Stmt :=
  fun t =>
    let p := pb t in
    if startCh p then Panic CloseOfClosedChannel t
    else Next (logged ActCloseStart t
                 {| handle := handle p; stopCh := stopCh p; startCh := true;
                    quitCh := quitCh p; err := err p |}).

(** [close(pb.stopCh)] *)
Definition close_stopCh : Stmt :=
  fun t =>
    let p := pb t in
    if stopCh p then Panic CloseOfClosedChannel t
    else Next (logged ActCloseStop t
                 {| handle := handle p; stopCh := true; startCh := startCh p;
                    quitCh := quitCh p; err := err p |}).

(** [pb.err = e] *)
Definition set_err (e : error) : Stmt :=
  fun t =>
    let p := pb t in
    Next (logged (ActSetErr e) t
            {| handle := handle p; stopCh := stopCh p; startCh := startCh p;
               quitCh := quitCh p; err := Some e |}).

(** [s.Cancel()] *)
Definition sub_Cancel : Stmt :=
  fun t => Next (logged ActSubCancel t (pb t)).

(** [defer d] *)
Definition defer (d : Deferred) : Stmt :=
  fun t => Next {| pb := pb t; id := id t; phase := phase t;
                   defers := d :: defers t; log := log t |}.

Definition ret : Stmt := fun t => Return t.
Definition continue : Stmt := fun t => Next t.
Definition break : Stmt := fun t => Break t.
Definition panic (c : PanicCause) : Stmt := fun t => Panic c t.

Definition with_phase (ph : Phase) (t : Tracker) : Tracker :=
  {| pb := pb t; id := id t; phase := ph; defers := defers t; log := log t |}.

Definition run_deferred (d : Deferred) : Stmt :=
  match d with
  | DeferSubCancel => sub_Cancel
  | DeferCloseStop => close_stopCh
  end.

(** The deferred calls run most recent first, on return and while panicking;
    a deferred call that panics replaces the panic in flight and the rest
    still run. *)
Fixpoint run_defers (ds : list Deferred) (c : option PanicCause) (t : Tracker)
  : option PanicCause * Tracker :=
  match ds with
  | [] => (c, t)
  | d :: ds' =>
      match run_deferred d t with
      | Panic c' t' => run_defers ds' (Some c') t'
      | Next t' | Break t' | Return t' => run_defers ds' c t'
      end
  end.

(** Leaving the goroutine's function, normally ([c = None]) or by a panic. *)
Definition unwind (c : option PanicCause) (t : Tracker) : Tracker :=
  let '(c', t') := run_defers (defers t) c t in
  {| pb := pb t'; id := id t'; defers := []; log := log t';
     phase := match c' with
              | None => Returned
              | Some why => Panicked why
              end |}.

(** ** The two loops *)

(** The case a [select] resolved to.  [SelEvent None] is a nil event. *)
Inductive Sel : Type :=
| SelQuit                       (* case <-quitCh *)
| SelEvent (v : option Event)   (* case v := <-s.C *)
| SelTimer.                     (* case <-startTimer, case <-stopTimer *)

Definition errStartTimeout : error :=
  ErrTimeout {| msg := "Timeout waiting for start of playback" |}.
Definition errStopTimeout : error :=
  ErrTimeout {| msg := "Timeout waiting for stop of playback" |}.

(** One iteration of [PlaybackStartLoop] (lines 83-124). *)
Definition PlaybackStartLoop (sel : Sel) : Stmt :=
  fun t =>
    match sel with
    | SelQuit => (close_startCh >> close_stopCh >> ret) t
    | SelEvent None => continue t
    | SelEvent (Some v) =>
        if GetType v =? "PlaybackStarted" then
          match assertPlaybackStarted v with
          | None => panic FailedTypeAssertion t
          | Some e => if negb (ID e =? id t) then continue t else break t
          end
        else if GetType v =? "PlaybackFinished" then
          match assertPlaybackFinished v with
          | None => panic FailedTypeAssertion t
          | Some e =>
              if negb (ID e =? id t) then continue t
              else (close_startCh >> close_stopCh >> ret) t
          end
        else continue t
    | SelTimer =>
        (set_err errStartTimeout >> close_startCh >> close_stopCh >> ret) t
    end.

(** Between the loops (lines 126-131): [close(pb.startCh)], then
    [defer close(pb.stopCh)]; the stop timer is armed by the world. *)
Definition enterPlaying : Stmt :=
  close_startCh >> defer DeferCloseStop.

(** One iteration of [PlaybackStopLoop] (lines 133-160). *)
Definition PlaybackStopLoop (sel : Sel) : Stmt :=
  fun t =>
    match sel with
    | SelQuit => ret t
    | SelEvent None => continue t
    | SelEvent (Some v) =>
        if GetType v =? "PlaybackFinished" then
          match assertPlaybackFinished v with
          | None => panic FailedTypeAssertion t
          | Some e => if negb (ID e =? id t) then continue t else ret t
          end
        else continue t
    | SelTimer => (set_err errStopTimeout >> ret) t
    end.

(** Leaving the function from a statement that did not fall through. *)
Definition leave (r : Ctl) : Tracker :=
  match r with
  | Next t | Break t | Return t => unwind None t
  | Panic c t => unwind (Some c) t
  end.

(** The goroutine from one [select] to the next, or to its end. *)
Definition tracker_step (sel : Sel) (t : Tracker) : Tracker :=
  match phase t with
  | AwaitingStart =>
      match PlaybackStartLoop sel t with
      | Next t' => t'                         (* continue PlaybackStartLoop *)
      | Break t' =>                           (* break PlaybackStartLoop *)
          match enterPlaying t' with
          | Next t'' => with_phase Playing t''
          | r => leave r
          end
      | r => leave r
      end
  | Playing =>
      match PlaybackStopLoop sel t with
      | Next t' => t'                         (* continue PlaybackStopLoop *)
      | r => leave r
      end
  | Returned | Panicked _ => t
  end.

(** The goroutine along a schedule: the cases its selects resolved to, in order. *)
Definition run (sched : list Sel) (t : Tracker) : Tracker :=
  fold_left (fun t' sel => tracker_step sel t') sched t.

(** ** PlayAsync *)

Inductive AsyncResult : Type :=
| Spawned (t : Tracker)                  (* return &pb, nil; the goroutine starts in [t] *)
| Failed (l : list Action) (e : error).  (* return nil, err; no goroutine *)

(** The goroutine at its first [select]: [defer s.Cancel()] was executed and
    the start timer is armed. *)
Definition spawn (h : PlaybackHandle) (data : PlaybackData) : Tracker :=
  {| pb := {| handle := h; stopCh := false; startCh := false; quitCh := false;
              err := None |};
     id := ID data;
     phase := AwaitingStart;
     defers := [DeferSubCancel];
     log := [ActSubscribe] |}.

Definition PlayAsync (p : Player) (mediaURI : string) : AsyncResult :=
  match play p mediaURI with
  | inr e => Failed [ActSubscribe; ActSubCancel] e
  | inl h =>
      match Data h with
      | inr e => Failed [ActSubscribe; ActSubCancel] e
      | inl data => Spawned (spawn h data)
      end
  end.

(** ** The select statements over a world *)

(** What the goroutine's selects look at: the playback (its [quitCh] is closed
    by [Cancel]), the events queued on [s.C], the clock, and the instants at
    which the channels of [time.After] deliver. *)
Record World : Type := {
  trk : Tracker;
  inbox : list (option Event);   (* oldest first *)
  now : N;
  startTimer : N;
  stopTimer : N
}.

(** The cases of a [select], by position. *)
Inductive Case : Type := CaseQuit | CaseEvent | CaseTimer.

(** Whether a case can proceed, and with which received value. *)
Definition proceeds (w : World) (c : Case) : option Sel :=
  match c with
  | CaseQuit => if quitCh (pb (trk w)) then Some SelQuit else None
  | CaseEvent =>
      match inbox w with
      | v :: _ => Some (SelEvent v)
      | [] => None
      end
  | CaseTimer =>
      match phase (trk w) with
      | AwaitingStart => if (startTimer w <=? now w)%N then Some SelTimer else None
      | Playing => if (stopTimer w <=? now w)%N then Some SelTimer else None
      | _ => None
      end
  end.

Definition suspended (t : Tracker) : bool :=
  match phase t with
  | AwaitingStart | Playing => true
  | _ => false
  end.

(** The world once the select took the case that received [sel]. *)
Definition resume (w : World) (sel : Sel) : World :=
  let t' := tracker_step sel (trk w) in
  {| trk := t';
     inbox := match sel with
              | SelEvent _ => tl (inbox w)
              | _ => inbox w
              end;
     now := now w;
     startTimer := startTimer w;
     stopTimer := match phase (trk w), phase t' with
                  | AwaitingStart, Playing => (now w + MaxPlaybackTime)%N
                  | _, _ => stopTimer w
                  end |}.

(** One resolution of the pending [select] by the case [c]: Go takes any one
    of the cases that can proceed.  [None]: the goroutine is not at a select,
    or [c] cannot proceed. *)
Definition select_step (w : World) (c : Case) : option World :=
  if suspended (trk w) then
    match proceeds w c with
    | Some sel => Some (resume w sel)
    | None => None
    end
  else None.

(** The world in which the goroutine starts. *)
Definition boot (t : Tracker) (clock : N) : World :=
  {| trk := t; inbox := []; now := clock;
     startTimer := (clock + PlaybackStartTimeout)%N;
     stopTimer := 0%N |}.

(** ** The methods of Playback that play.go calls *)

(** Modelled from the spec: the methods [StopCh], [Err] and [Cancel] of
    [Playback] are declared outside play.go.  [StopCh] is the observable that
    marks overall completion. *)
Definition StopCh (p : Playback) : bool := stopCh p.

(** Modelled from the spec: [Err] returns the stored error, or none. *)
Definition Err (p : Playback) : option error := err p.

(** Modelled from the spec: [Cancel] requests termination, can be called
    several times and does not block: it leaves the quit signal set. *)
Definition Cancel (p : Playback) : Playback :=
  {| handle := handle p; stopCh := stopCh p; startCh := startCh p;
     quitCh := true; err := err p |}.

(** ** Play *)

(** The cases of the [select] in [Play]. *)
Inductive PlayCase : Type :=
| PlayStopCh      (* case <-pb.StopCh() *)
| PlayCtxDone.    (* case <-ctx.Done() *)

(** What a call of [Play] leaves: the error it returns ([None] is nil) and
    the playbacks on which the deferred [pb.Cancel()] ran, in order. *)
Record PlayOutcome : Type := {
  returned : option error;
  cancelled : list Playback
}.

(** [Play], given how far the goroutine got: it had run [sched] when the
    select of [Play] resolved by the case [c], and [later] more when [Play]
    read [pb.Err()].  [None]: the case [c] cannot proceed at that point. *)
Definition Play (ctx : Context) (p : Player) (mediaURI : string)
    (sched later : list Sel) (c : PlayCase) : option PlayOutcome :=
  match PlayAsync p mediaURI with
  | Failed _ e => Some {| returned := Some e; cancelled := [] |}
  | Spawned t0 =>
      let t := run sched t0 in
      match c with
      | PlayStopCh =>
          if StopCh (pb t) then
            let t' := run later t in
            Some {| returned := Err (pb t'); cancelled := [Cancel (pb t')] |}
          else None
      | PlayCtxDone =>
          match ctx with
          | Done e => Some {| returned := Some e; cancelled := [Cancel (pb t)] |}
          | Active => None
          end
      end
  end.

(** ** Classes of events *)

(** The shape of the events the bus delivers: nil, or an event whose
    recognised type tag names its dynamic type. *)
Definition wellTyped (v : option Event) : bool :=
  match v with
  | None => true
  | Some e =>
      if GetType e =? "PlaybackStarted" then
        match dyn e with DynPlaybackStarted _ => true | _ => false end
      else if GetType e =? "PlaybackFinished" then
        match dyn e with DynPlaybackFinished _ => true | _ => false end
      else true
  end.

(** Events that do not concern the playback [i]: nil, a PlaybackStarted or
    PlaybackFinished event of another playback, or an event of another type. *)
Definition unrelated (i : string) (v : option Event) : bool :=
  match v with
  | None => true
  | Some e =>
      if GetType e =? "PlaybackStarted" then
        match dyn e with
        | DynPlaybackStarted d => negb (ID d =? i)
        | _ => false
        end
      else if GetType e =? "PlaybackFinished" then
        match dyn e with
        | DynPlaybackFinished d => negb (ID d =? i)
        | _ => false
        end
      else true
  end.

(** A select outcome whose received event, if any, is well typed. *)
Definition selWellTyped (sel : Sel) : bool :=
  match sel with
  | SelEvent v => wellTyped v
  | _ => true
  end.

(** A recognised tag on an event of another dynamic type. *)
Definition mistagged (e : Event) : bool :=
  if GetType e =? "PlaybackStarted" then
    match dyn e with DynPlaybackStarted _ => false | _ => true end
  else if GetType e =? "PlaybackFinished" then
    match dyn e with DynPlaybackFinished _ => false | _ => true end
  else false.

(** [l] never has [ActCloseStop] before the first [ActCloseStart]. *)
Fixpoint startFirst (seen : bool) (l : list Action) : bool :=
  match l with
  | [] => true
  | ActCloseStart :: l' => startFirst true l'
  | ActCloseStop :: l' => seen && startFirst seen l'
  | _ :: l' => startFirst seen l'
  end.

(** ** The states the goroutine can be in *)

Section States.

Variable h : PlaybackHandle.
Variable i : string.      (* the identifier of the playback *)
Variable q : bool.        (* whether quitCh is closed *)

Definition state (started stopped : bool) (e : option error) (ph : Phase)
    (ds : list Deferred) (l : list Action) : Tracker :=
  {| pb := {| handle := h; stopCh := stopped; startCh := started;
              quitCh := q; err := e |};
     id := i; phase := ph; defers := ds; log := l |}.

(** In PlaybackStartLoop. *)
Definition waiting : Tracker :=
  state false false None AwaitingStart [DeferSubCancel] [ActSubscribe].

(** In PlaybackStopLoop. *)
Definition playing : Tracker :=
  state true false None Playing [DeferCloseStop; DeferSubCancel]
    [ActSubscribe; ActCloseStart].

(** Returned without an error: quit or a matching PlaybackFinished, in
    either loop. *)
Definition completed : Tracker :=
  state true true None Returned []
    [ActSubscribe; ActCloseStart; ActCloseStop; ActSubCancel].

Definition startTimedOut : Tracker :=
  state true true (Some errStartTimeout) Returned []
    [ActSubscribe; ActSetErr errStartTimeout; ActCloseStart; ActCloseStop;
     ActSubCancel].

Definition stopTimedOut : Tracker :=
  state true true (Some errStopTimeout) Returned []
    [ActSubscribe; ActCloseStart; ActSetErr errStopTimeout; ActCloseStop;
     ActSubCancel].

(** A type assertion failed in PlaybackStartLoop. *)
Definition brokenWaiting : Tracker :=
  state false false None (Panicked FailedTypeAssertion) []
    [ActSubscribe; ActSubCancel].

(** A type assertion failed in PlaybackStopLoop. *)
Definition brokenPlaying : Tracker :=
  state true true None (Panicked FailedTypeAssertion) []
    [ActSubscribe; ActCloseStart; ActCloseStop; ActSubCancel].

Definition states : list Tracker :=
  [waiting; playing; completed; startTimedOut; stopTimedOut;
   brokenWaiting; brokenPlaying].

End States.

(** The states that well-typed events alone lead to. *)
Definition calm h i q (t : Tracker) : Prop :=
  t = waiting h i q \/ t = playing h i q \/ t = completed h i q.

(** ** What the environment does to a world *)

(** An event arrives on [s.C]. *)
Definition deliver (v : option Event) (w : World) : World :=
  {| trk := trk w; inbox := inbox w ++ [v]; now := now w;
     startTimer := startTimer w; stopTimer := stopTimer w |}.

(** Time passes. *)
Definition elapse (d : N) (w : World) : World :=
  {| trk := trk w; inbox := inbox w; now := (now w + d)%N;
     startTimer := startTimer w; stopTimer := stopTimer w |}.

(** The owner of the playback calls [pb.Cancel()]. *)
Definition cancel (w : World) : World :=
  let t := trk w in
  {| trk := {| pb := Cancel (pb t); id := id t; phase := phase t;
               defers := defers t; log := log t |};
     inbox := inbox w; now := now w;
     startTimer := startTimer w; stopTimer := stopTimer w |}.

(** ** Sample inputs *)

Definition handle1 : PlaybackHandle := {| Data := inl {| ID := "pb1" |} |}.
Definition player1 : Player := {| play := fun _ => inl handle1 |}.

(** Another type, nil, another playback started and finished. *)
Definition noise1 : list (option Event) :=
  [Some {| GetType := "ChannelDtmfReceived"; dyn := DynOther |};
   None;
   Some (evStarted "pb2");
   Some (evFinished "pb2")].

(** The goroutine in its first loop, quit closed by [Cancel], with the
    PlaybackStarted event of the playback queued. *)
Definition worldQuitAndEvent : World :=
  deliver (Some (evStarted "pb1"))
    (cancel (boot (spawn handle1 {| ID := "pb1" |}) 0%N)).

(** The goroutine in its first loop, quit closed, the start timer elapsed. *)
Definition worldQuitAndTimer : World :=
  elapse (2 * Second)%N (cancel (boot (spawn handle1 {| ID := "pb1" |}) 0%N)).

(** A PlaybackStarted tag on an event of another dynamic type. *)
Definition evMistaggedStarted : Event :=
  {| GetType := "PlaybackStarted"; dyn := DynOther |}.

(** ** Further classes of events and histories *)

(** An event tagged PlaybackStarted, whatever it carries. *)
Definition taggedStarted (v : option Event) : bool :=
  match v with
  | Some e => GetType e =? "PlaybackStarted"
  | None => false
  end.

(** [l] has no [ActSetErr] after an [ActCloseStop]; [stopped] tells whether
    one was already seen. *)
Fixpoint noErrAfterStop (stopped : bool) (l : list Action) : bool :=
  match l with
  | [] => true
  | ActCloseStop :: l' => noErrAfterStop true l'
  | ActSetErr _ :: l' => negb stopped && noErrAfterStop stopped l'
  | _ :: l' => noErrAfterStop stopped l'
  end.

(** ** Further sample inputs *)

(** An error of the ARI server, without a [Timeout] method. *)
Definition errNoChannel : error := ErrForeign "Channel not found" None.

(** A player whose command succeeds on a handle whose data cannot be read. *)
Definition playerNoData : Player :=
  {| play := fun _ => inl {| Data := inr errNoChannel |} |}.

(** The goroutine in its first loop when the start timer has already
    elapsed, with the PlaybackStarted event of the playback queued. *)
Definition worldLateStart : World :=
  deliver (Some (evStarted "pb1"))
    (elapse (3 * Second)%N (boot (spawn handle1 {| ID := "pb1" |}) 0%N)).

(** * Properties *)

(** ** Schedules *)

Lemma run_app (s1 s2 : list Sel) (t : Tracker) :
  run (s1 ++ s2) t = run s2 (run s1 t).
Proof. unfold run. apply fold_left_app. Qed.

Lemma run_cons (sel : Sel) (s : list Sel) (t : Tracker) :
  run (sel :: s) t = run s (tracker_step sel t).
Proof. reflexivity. Qed.

Lemma spawn_waiting (h : PlaybackHandle) (data : PlaybackData) :
  spawn h data = waiting h (ID data) false.
Proof. reflexivity. Qed.

(** A goroutine that is not at a select does nothing more. *)
Lemma step_ended (sel : Sel) (t : Tracker) :
  suspended t = false -> tracker_step sel t = t.
Proof.
  unfold suspended, tracker_step. destruct (phase t); intros E; try discriminate E; reflexivity.
Qed.

Lemma run_ended (s : list Sel) (t : Tracker) :
  suspended t = false -> run s t = t.
Proof.
  induction s as [|sel s IH]; intros E; [reflexivity|].
  rewrite run_cons, (step_ended sel t E). exact (IH E).
Qed.

Ltac split_ior H :=
  repeat match type of H with
         | _ \/ _ => destruct H as [H|H]
         end.

Ltac case_tags :=
  repeat match goal with
         | |- context [String.eqb ?a ?b] =>
             let E := fresh "E" in destruct (String.eqb a b) eqn:E; cbn
         end.

(** What one event does in PlaybackStartLoop. *)
Lemma step_event_waiting h i q (v : Event) :
  let t := tracker_step (SelEvent (Some v)) (waiting h i q) in
  (unrelated i (Some v) = true /\ t = waiting h i q) \/
  (v = evStarted i /\ t = playing h i q) \/
  (v = evFinished i /\ t = completed h i q) \/
  (mistagged v = true /\ t = brokenWaiting h i q).
Proof.
  destruct v as [ty [d|d|]]; unfold unrelated, mistagged, evStarted, evFinished;
    cbn; case_tags; auto;
    try (apply String.eqb_eq in E); try (apply String.eqb_eq in E0);
    try (apply String.eqb_eq in E1); subst; destruct d; cbn in *; subst; auto 6.
Qed.

(** What one event does in PlaybackStopLoop. *)
Lemma step_event_playing h i q (v : Event) :
  let t := tracker_step (SelEvent (Some v)) (playing h i q) in
  ((unrelated i (Some v) = true \/ GetType v <> "PlaybackFinished")
     /\ t = playing h i q) \/
  (v = evFinished i /\ t = completed h i q) \/
  (GetType v = "PlaybackFinished" /\ mistagged v = true /\ t = brokenPlaying h i q).
Proof.
  destruct v as [ty [d|d|]]; unfold unrelated, mistagged, evFinished;
    cbn; destruct (String.eqb ty "PlaybackFinished") eqn:E; cbn;
    try (apply String.eqb_eq in E as ->; cbn; auto 6; fail);
    try (apply String.eqb_neq in E; auto; fail).
  apply String.eqb_eq in E as ->. cbn.
  destruct d as [j]. cbn. destruct (String.eqb j i) eqn:E; cbn; auto.
  apply String.eqb_eq in E as ->. auto.
Qed.

(** ** Every schedule stays within [states] *)

Ltac in_states := unfold states; cbn [In]; auto 10.

Lemma step_states h i q (sel : Sel) (t : Tracker) :
  In t (states h i q) -> In (tracker_step sel t) (states h i q).
Proof.
  intros H. unfold states in H. cbn [In] in H. split_ior H; try contradiction; subst t;
    try (rewrite step_ended by reflexivity; in_states; fail).
  - (* PlaybackStartLoop *)
    destruct sel as [|[v|]|]; try (cbn; in_states; fail).
    pose proof (step_event_waiting h i q v) as S. cbv zeta in S.
    destruct S as [[_ ->]|[[_ ->]|[[_ ->]|[_ ->]]]]; in_states.
  - (* PlaybackStopLoop *)
    destruct sel as [|[v|]|]; try (cbn; in_states; fail).
    pose proof (step_event_playing h i q v) as S. cbv zeta in S.
    destruct S as [[_ ->]|[[_ ->]|[_ [_ ->]]]]; in_states.
Qed.

Lemma run_states h i q (sched : list Sel) (t : Tracker) :
  In t (states h i q) -> In (run sched t) (states h i q).
Proof.
  revert t. induction sched as [|sel sched IH]; intros t H; [exact H|].
  rewrite run_cons. apply IH, step_states, H.
Qed.

Lemma spawn_states h data (sched : list Sel) :
  In (run sched (spawn h data)) (states h (ID data) false).
Proof. apply run_states. rewrite spawn_waiting. in_states. Qed.

(** Case analysis over the states of the goroutine. *)
Ltac on_states H :=
  unfold states in H; cbn [In] in H; split_ior H; try contradiction; subst.

(** ** Order of the two closes *)

Lemma startFirst_prefix (l : list Action) :
  forall seen, startFirst seen l = true ->
  forall before after, l = before ++ after ->
    In ActCloseStop before -> seen = true \/ In ActCloseStart before.
Proof.
  induction l as [|a l IH]; intros seen S before after E I.
  - destruct before; [destruct I | discriminate E].
  - destruct before as [|b before]; [destruct I|].
    cbn in E. injection E as <- E.
    destruct a; cbn in S.
    + destruct I as [I|I]; [discriminate I|].
      destruct (IH _ S _ _ E I); auto using in_cons.
    + destruct I as [I|I]; [discriminate I|].
      destruct (IH _ S _ _ E I); auto using in_cons.
    + right. left. reflexivity.
    + apply andb_prop in S as [S1 S2]. auto.
    + destruct I as [I|I]; [discriminate I|].
      destruct (IH _ S _ _ E I); auto using in_cons.
Qed.

(** C2: on every path of the goroutine, whatever the cases its selects take
    (quit in either loop, the start timer, a matching PlaybackFinished before
    or after the start, the stop timer), the stop channel is not closed before
    the start channel: at every point of the history a close of [stopCh] is
    preceded by the close of [startCh], and a state with [stopCh] closed has
    [startCh] closed. *)
Theorem stop_never_closes_first h data (sched : list Sel) :
  let t := run sched (spawn h data) in
  (stopCh (pb t) = true -> startCh (pb t) = true) /\
  (forall before after, log t = before ++ after ->
     In ActCloseStop before -> In ActCloseStart before).
Proof.
  cbv zeta. pose proof (spawn_states h data sched) as H.
  set (t := run sched (spawn h data)) in *. clearbody t.
  split.
  - on_states H; cbn; auto.
  - intros before after E I.
    assert (S : startFirst false (log t) = true) by (on_states H; reflexivity).
    destruct (startFirst_prefix _ _ S _ _ E I) as [F|F]; [discriminate F | exact F].
Qed.

(** ** No panic on well-typed events *)

Lemma wellTyped_not_mistagged (v : Event) :
  wellTyped (Some v) = true -> mistagged v = false.
Proof.
  unfold wellTyped, mistagged. destruct v as [ty [d|d|]]; cbn; case_tags; congruence.
Qed.

(** Well-typed events lead from the first loop to the second or to a return
    without error, and to nothing else. *)
Lemma step_wellTyped h i q (v : option Event) :
  wellTyped v = true ->
  (tracker_step (SelEvent v) (waiting h i q) = waiting h i q \/
   v = Some (evStarted i) /\
     tracker_step (SelEvent v) (waiting h i q) = playing h i q \/
   v = Some (evFinished i) /\
     tracker_step (SelEvent v) (waiting h i q) = completed h i q) /\
  (tracker_step (SelEvent v) (playing h i q) = playing h i q \/
   v = Some (evFinished i) /\
     tracker_step (SelEvent v) (playing h i q) = completed h i q).
Proof.
  destruct v as [v|]; [|split; left; reflexivity].
  intros W. apply wellTyped_not_mistagged in W. split.
  - pose proof (step_event_waiting h i q v) as S. cbv zeta in S.
    destruct S as [[_ S]|[[-> S]|[[-> S]|[M _]]]]; auto; congruence.
  - pose proof (step_event_playing h i q v) as S. cbv zeta in S.
    destruct S as [[_ S]|[[-> S]|[_ [M _]]]]; auto; congruence.
Qed.

Lemma step_no_panic h i q (sel : Sel) (t : Tracker) :
  selWellTyped sel = true ->
  In t (states h i q) -> (forall c, phase t <> Panicked c) ->
  forall c, phase (tracker_step sel t) <> Panicked c.
Proof.
  intros W H N. on_states H;
    try (rewrite step_ended by reflexivity; exact N).
  - destruct sel as [|v|]; try (cbn; discriminate).
    destruct (step_wellTyped h i q v W) as [[-> | [[_ ->] | [_ ->]]] _];
      cbn; discriminate.
  - destruct sel as [|v|]; try (cbn; discriminate).
    destruct (step_wellTyped h i q v W) as [_ [-> | [_ ->]]]; cbn; discriminate.
Qed.

Lemma run_no_panic h i q (sched : list Sel) :
  forallb selWellTyped sched = true ->
  forall t, In t (states h i q) -> (forall c, phase t <> Panicked c) ->
  forall c, phase (run sched t) <> Panicked c.
Proof.
  induction sched as [|sel sched IH]; intros W t H N; [exact N|].
  cbn [forallb] in W. apply andb_prop in W as [W1 W2].
  rewrite run_cons. apply (IH W2).
  - apply step_states, H.
  - apply (step_no_panic h i q); assumption.
Qed.

(** ** Closing exactly once *)

(** C8: no execution of the goroutine closes a channel twice: no schedule
    leads to the panic of a close of a closed channel, each channel is closed
    at most once at any point, and once the goroutine has returned (by quit,
    a matching PlaybackFinished or a timer, in either loop) [startCh] and
    [stopCh] have each been closed exactly once; a goroutine that returned
    takes no further branch.  On well-typed events a goroutine that has left
    its loops has returned. *)
Theorem channels_closed_once h data (sched : list Sel) :
  let t := run sched (spawn h data) in
  phase t <> Panicked CloseOfClosedChannel /\
  times ActCloseStart (log t) <= 1 /\
  times ActCloseStop (log t) <= 1 /\
  (phase t = Returned ->
     times ActCloseStart (log t) = 1 /\ times ActCloseStop (log t) = 1 /\
     startCh (pb t) = true /\ stopCh (pb t) = true /\
     forall sel, tracker_step sel t = t) /\
  (forallb selWellTyped sched = true -> suspended t = false -> phase t = Returned).
Proof.
  cbv zeta. pose proof (spawn_states h data sched) as H.
  assert (P : forallb selWellTyped sched = true ->
              forall c, phase (run sched (spawn h data)) <> Panicked c).
  { intros W. apply (run_no_panic h (ID data) false sched W).
    - rewrite spawn_waiting. in_states.
    - intros c. cbn. discriminate. }
  set (t := run sched (spawn h data)) in *. clearbody t.
  on_states H; cbn; repeat split; try discriminate; auto;
    intros W _; exfalso; exact (P W _ eq_refl).
Qed.

(** ** Release of the subscription *)

(** C5: the subscription is released exactly once on every execution of
    [PlayAsync].  When [p.Play] or [h.Data] fails, [PlayAsync] returns the
    error after one [s.Cancel()] and starts no goroutine.  Otherwise the
    goroutine starts in PlaybackStartLoop and the PlaybackStarted event of
    the playback takes it to PlaybackStopLoop; it holds the subscription
    while it is in a loop, and from either loop each exit (quit, the timer of
    the loop, the PlaybackFinished event of the playback) makes it return
    with exactly one [s.Cancel()] in its history, after which it does
    nothing more; whatever the schedule, the count is never above one. *)
Theorem subscription_released_once (p : Player) (mediaURI : string) :
  match PlayAsync p mediaURI with
  | Failed l e =>
      (play p mediaURI = inr e \/
       exists h, play p mediaURI = inl h /\ Data h = inr e) /\
      times ActSubscribe l = 1 /\ times ActSubCancel l = 1
  | Spawned t0 =>
      (phase t0 = AwaitingStart /\
       phase (tracker_step (SelEvent (Some (evStarted (id t0)))) t0) = Playing) /\
      forall sched,
        let t := run sched t0 in
        times ActSubscribe (log t) = 1 /\
        times ActSubCancel (log t) = (if suspended t then 0 else 1) /\
        (suspended t = true ->
         forall sel,
           sel = SelQuit \/ sel = SelTimer \/
           sel = SelEvent (Some (evFinished (id t0))) ->
           let t' := tracker_step sel t in
           phase t' = Returned /\ times ActSubCancel (log t') = 1 /\
           forall more, run more t' = t')
  end.
Proof.
  unfold PlayAsync. destruct (play p mediaURI) as [h|e] eqn:P.
  - destruct (Data h) as [data|e] eqn:D.
    + split.
      { split; [reflexivity|]. cbn. rewrite String.eqb_refl. reflexivity. }
      intros sched. cbv zeta. pose proof (spawn_states h data sched) as H.
      set (t := run sched (spawn h data)) in *. clearbody t.
      split; [on_states H; reflexivity|].
      split; [on_states H; reflexivity|].
      intros S sel E. cbn [id spawn] in E.
      on_states H; try discriminate S;
        destruct E as [-> | [-> | ->]]; cbn; rewrite ?String.eqb_refl; cbn;
        (split; [reflexivity | split; [reflexivity|]]);
        intros more; apply run_ended; reflexivity.
    + repeat split; eauto.
  - repeat split; auto.
Qed.

Lemma subscription_released_once_witness :
  (let t' := tracker_step SelTimer
               (run [SelEvent None; SelEvent (Some (evStarted "pb1"))]
                  (spawn handle1 {| ID := "pb1" |})) in
   phase t' = Returned /\ times ActSubCancel (log t') = 1 /\
   forall more, run more t' = t') /\
  times ActSubCancel [ActSubscribe; ActSubCancel] = 1.
Proof.
  split.
  - pose proof (subscription_released_once player1 "sound:hello") as W.
    cbn [PlayAsync player1 play handle1 Data] in W.
    destruct W as [_ W].
    destruct (W [SelEvent None; SelEvent (Some (evStarted "pb1"))]) as [_ [_ W']].
    exact (W' eq_refl SelTimer (or_intror (or_introl eq_refl))).
  - pose proof (subscription_released_once playerNoData "sound:hello") as W.
    cbn [PlayAsync playerNoData play Data] in W.
    destruct W as [_ [_ W]]. exact W.
Defined.

(** ** Errors of the goroutine *)

(** C7: every error the goroutine stores is a [timeoutErr], one of the two
    timeout messages, and answers [true] to [Timeout()], so that the caller's
    query [isTimeout] recognises it; no other assignment to [pb.err] occurs. *)
Theorem stored_errors_are_timeouts h data (sched : list Sel) :
  let t := run sched (spawn h data) in
  (forall te, Timeout te = true) /\
  (forall e, err (pb t) = Some e \/ In (ActSetErr e) (log t) ->
     isTimeout e = true /\
     exists te, e = ErrTimeout te /\ Timeout te = true /\
       (Error te = "Timeout waiting for start of playback" \/
        Error te = "Timeout waiting for stop of playback")).
Proof.
  cbv zeta. pose proof (spawn_states h data sched) as H.
  set (t := run sched (spawn h data)) in *. clearbody t.
  split; [reflexivity|].
  intros e [E|E]; on_states H; cbn in E; try discriminate E;
    try (injection E as <-); cbn in *; split_ior E; try discriminate E;
    try contradiction; try (injection E as <-);
    (split; [reflexivity | eexists; split; [reflexivity | cbn; auto]]).
Qed.

(** ** Events that do not concern the playback *)

Lemma step_unrelated h i q (v : option Event) :
  unrelated i v = true ->
  tracker_step (SelEvent v) (waiting h i q) = waiting h i q /\
  tracker_step (SelEvent v) (playing h i q) = playing h i q.
Proof.
  destruct v as [v|]; [|split; reflexivity].
  intros U. split.
  - pose proof (step_event_waiting h i q v) as S. cbv zeta in S.
    destruct S as [[_ S]|[[-> _]|[[-> _]|[M _]]]]; [exact S| | |].
    + cbn in U. rewrite String.eqb_refl in U. discriminate U.
    + cbn in U. rewrite String.eqb_refl in U. discriminate U.
    + exfalso. revert U M. unfold unrelated, mistagged.
      destruct v as [ty [d|d|]]; cbn; case_tags; congruence.
  - pose proof (step_event_playing h i q v) as S. cbv zeta in S.
    destruct S as [[_ S]|[[-> _]|[_ [M _]]]]; [exact S| |].
    + cbn in U. rewrite String.eqb_refl in U. discriminate U.
    + exfalso. revert U M. unfold unrelated, mistagged.
      destruct v as [ty [d|d|]]; cbn; case_tags; congruence.
Qed.

Lemma run_unrelated h i q (evs : list (option Event)) :
  forallb (unrelated i) evs = true ->
  run (map SelEvent evs) (waiting h i q) = waiting h i q /\
  run (map SelEvent evs) (playing h i q) = playing h i q.
Proof.
  induction evs as [|v evs IH]; [split; reflexivity|].
  cbn [forallb map]. intros U. apply andb_prop in U as [U1 U2].
  rewrite !run_cons. destruct (step_unrelated h i q v U1) as [-> ->].
  exact (IH U2).
Qed.

(** C3: while the events delivered in PlaybackStartLoop are nil, or are
    PlaybackStarted or PlaybackFinished events of another playback, or have
    another type tag, the goroutine stays in that loop, with both channels
    open and no error; when the start timer then fires it stores the
    start-timeout error, closes both channels and returns. *)
Theorem unrelated_events_until_start_timeout h data (evs : list (option Event)) :
  forallb (unrelated (ID data)) evs = true ->
  let t0 := spawn h data in
  let idle := run (map SelEvent evs) t0 in
  let t := run (map SelEvent evs ++ [SelTimer]) t0 in
  (idle = t0 /\ phase idle = AwaitingStart /\
   startCh (pb idle) = false /\ stopCh (pb idle) = false /\ err (pb idle) = None) /\
  (phase t = Returned /\
   err (pb t) = Some errStartTimeout /\ isTimeout errStartTimeout = true /\
   startCh (pb t) = true /\ stopCh (pb t) = true /\
   log t = [ActSubscribe; ActSetErr errStartTimeout; ActCloseStart; ActCloseStop;
            ActSubCancel]).
Proof.
  intros U. cbv zeta. rewrite run_app, spawn_waiting.
  destruct (run_unrelated h (ID data) false evs U) as [-> _].
  repeat split.
Qed.

Lemma unrelated_events_until_start_timeout_witness :
  phase (run (map SelEvent noise1) (spawn handle1 {| ID := "pb1" |})) = AwaitingStart /\
  err (pb (run (map SelEvent noise1 ++ [SelTimer]) (spawn handle1 {| ID := "pb1" |})))
    = Some errStartTimeout.
Proof.
  pose proof (unrelated_events_until_start_timeout handle1 {| ID := "pb1" |} noise1
                eq_refl) as W.
  cbv zeta in W. destruct W as [[_ [W1 _]] [_ [W2 _]]]. split; [exact W1 | exact W2].
Defined.

(** ** PlaybackFinished before PlaybackStarted *)

(** C4: if the PlaybackFinished event of the playback is received in
    PlaybackStartLoop, that is before any PlaybackStarted event of the
    playback, the goroutine returns without storing an error, and that one
    step closes [startCh] and then [stopCh], both open before it. *)
Theorem finished_before_started h data (sched : list Sel) :
  let t0 := spawn h data in
  phase (run sched t0) = AwaitingStart ->
  let before := run sched t0 in
  let t := run (sched ++ [SelEvent (Some (evFinished (ID data)))]) t0 in
  (startCh (pb before) = false /\ stopCh (pb before) = false) /\
  phase t = Returned /\ err (pb t) = None /\
  startCh (pb t) = true /\ stopCh (pb t) = true /\
  log t = [ActSubscribe; ActCloseStart; ActCloseStop; ActSubCancel].
Proof.
  cbv zeta. intros A. rewrite run_app.
  pose proof (spawn_states h data sched) as H.
  set (t := run sched (spawn h data)) in *. clearbody t.
  on_states H; try discriminate A.
  cbn. rewrite String.eqb_refl. cbn. repeat split.
Qed.

Lemma finished_before_started_witness :
  let t := run [SelEvent None; SelEvent (Some (evStarted "pb2"));
                SelEvent (Some (evFinished "pb1"))]
             (spawn handle1 {| ID := "pb1" |}) in
  phase t = Returned /\ err (pb t) = None /\
  startCh (pb t) = true /\ stopCh (pb t) = true.
Proof.
  pose proof (finished_before_started handle1 {| ID := "pb1" |}
                [SelEvent None; SelEvent (Some (evStarted "pb2"))] eq_refl) as W.
  cbv zeta in W. destruct W as [_ [W1 [W2 [W3 [W4 _]]]]].
  cbv zeta. repeat split; assumption.
Defined.

(** ** A started playback that finishes *)

Lemma run_wellTyped h i q (evs : list (option Event)) :
  forallb wellTyped evs = true ->
  forall t, calm h i q t ->
    calm h i q (run (map SelEvent evs) t) /\
    (t <> waiting h i q -> run (map SelEvent evs) t <> waiting h i q) /\
    (~ In (Some (evFinished i)) evs -> t <> completed h i q ->
       run (map SelEvent evs) t <> completed h i q).
Proof.
  induction evs as [|v evs IH]; intros W t C; [cbn; auto|].
  cbn [forallb map] in *. apply andb_prop in W as [W1 W2].
  rewrite run_cons.
  destruct (step_wellTyped h i q v W1) as [S1 S2].
  assert (D1 : waiting h i q <> playing h i q) by discriminate.
  assert (D2 : waiting h i q <> completed h i q) by discriminate.
  assert (D3 : playing h i q <> completed h i q) by discriminate.
  destruct C as [-> | [-> | ->]];
    [ destruct S1 as [-> | [[-> ->] | [-> ->]]]
    | destruct S2 as [-> | [-> ->]]
    | rewrite step_ended by reflexivity ];
    (match goal with
     | |- calm _ _ _ (run _ ?t') /\ _ =>
         assert (C' : calm h i q t') by (unfold calm; auto);
         destruct (IH W2 t' C') as [I1 [I2 I3]]
     end;
     split; [exact I1 | split];
     [ intros NW;
       first [ exfalso; apply NW; reflexivity | apply I2; discriminate ]
     | intros N NC;
       first [ exfalso; apply NC; reflexivity
             | exfalso; apply N; left; reflexivity
             | apply I3; [ intros F; apply N; right; exact F | discriminate ] ] ]).
Qed.

Lemma forallb_app_inv {A} (f : A -> bool) (l1 l2 : list A) :
  forallb f (l1 ++ l2) = true -> forallb f l1 = true /\ forallb f l2 = true.
Proof. rewrite forallb_app. apply andb_prop. Qed.

(** The goroutine over a well-typed sequence in which the PlaybackStarted
    event of the playback comes before its PlaybackFinished event. *)
Lemma run_started_finished h i q (pre mid post : list (option Event)) :
  forallb wellTyped
    (pre ++ Some (evStarted i) :: mid ++ Some (evFinished i) :: post) = true ->
  run (map SelEvent
         (pre ++ Some (evStarted i) :: mid ++ Some (evFinished i) :: post))
      (waiting h i q) = completed h i q /\
  (~ In (Some (evFinished i)) pre ->
     run (map SelEvent (pre ++ [Some (evStarted i)])) (waiting h i q)
       = playing h i q).
Proof.
  intros W.
  apply forallb_app_inv in W as [Wpre W]. cbn [forallb] in W.
  apply andb_prop in W as [_ W]. apply forallb_app_inv in W as [Wmid W].
  cbn [forallb] in W. apply andb_prop in W as [_ Wpost].
  destruct (run_wellTyped h i q pre Wpre (waiting h i q) (or_introl eq_refl))
    as [C1 [_ N1]].
  assert (S1 : forall t, calm h i q t ->
             let t' := tracker_step (SelEvent (Some (evStarted i))) t in
             (t' = playing h i q \/ t' = completed h i q) /\
             (t <> completed h i q -> t' = playing h i q)).
  { intros t [->|[->| ->]]; cbn; rewrite ?String.eqb_refl; cbn; split; auto;
      intros N; congruence. }
  assert (S2 : forall t, t = playing h i q \/ t = completed h i q ->
             tracker_step (SelEvent (Some (evFinished i))) t = completed h i q).
  { intros t [->| ->]; cbn; rewrite ?String.eqb_refl; reflexivity. }
  split.
  - rewrite map_app, run_app. cbn [map]. rewrite run_cons.
    rewrite map_app, run_app. cbn [map]. rewrite run_cons.
    destruct (S1 _ C1) as [P _]. cbv zeta in P.
    set (t1 := tracker_step _ (run (map SelEvent pre) _)) in *. clearbody t1.
    assert (C2 : calm h i q t1) by (unfold calm; tauto).
    destruct (run_wellTyped h i q mid Wmid t1 C2) as [C3 [N3 _]].
    assert (P3 : run (map SelEvent mid) t1 = playing h i q \/
                 run (map SelEvent mid) t1 = completed h i q).
    { destruct C3 as [C3|C3]; [|exact C3].
      exfalso. apply N3; [|exact C3]. destruct P as [-> | ->]; discriminate. }
    rewrite (S2 _ P3). apply run_ended. reflexivity.
  - intros NF. rewrite map_app, run_app. cbn [map]. rewrite run_cons. cbn [run fold_left].
    destruct (S1 _ C1) as [_ P]. apply P. apply N1; [exact NF | discriminate].
Qed.

(** C1: when the events received contain the PlaybackStarted event of the
    playback and, after it, its PlaybackFinished event, and no timer fires nor
    quit is taken before them, [Play] returns nil once its select takes the
    stop case (the only case that can proceed while the context is active),
    and the goroutine has closed [startCh] before [stopCh]; if moreover no
    PlaybackFinished event of the playback precedes the PlaybackStarted one,
    then on receiving the latter [startCh] is closed while [stopCh] is still
    open.  The events are those of a bus: a recognised tag names the dynamic
    type. *)
Theorem Play_started_then_finished
    (ctx : Context) (p : Player) (mediaURI : string)
    (h : PlaybackHandle) (data : PlaybackData)
    (pre mid post : list (option Event)) (later : list Sel) :
  play p mediaURI = inl h ->
  Data h = inl data ->
  let i := ID data in
  let evs := pre ++ Some (evStarted i) :: mid ++ Some (evFinished i) :: post in
  forallb wellTyped evs = true ->
  let sched := map SelEvent evs in
  let t := run sched (spawn h data) in
  Play ctx p mediaURI sched later PlayStopCh
    = Some {| returned := None; cancelled := [Cancel (pb t)] |} /\
  Play Active p mediaURI sched later PlayCtxDone = None /\
  phase t = Returned /\
  log t = [ActSubscribe; ActCloseStart; ActCloseStop; ActSubCancel] /\
  (~ In (Some (evFinished i)) pre ->
     let t1 := run (map SelEvent (pre ++ [Some (evStarted i)])) (spawn h data) in
     startCh (pb t1) = true /\ stopCh (pb t1) = false).
Proof.
  intros P D i evs W sched t.
  destruct (run_started_finished h i false pre mid post W) as [R1 R2].
  fold evs in R1. fold sched in R1.
  assert (T : t = completed h i false) by (subst t; rewrite spawn_waiting; exact R1).
  unfold Play, PlayAsync. rewrite P, D. fold t. rewrite T.
  repeat split.
  - cbn. rewrite run_ended by reflexivity. reflexivity.
  - rewrite spawn_waiting. fold i. rewrite (R2 H). reflexivity.
  - rewrite spawn_waiting. fold i. rewrite (R2 H). reflexivity.
Qed.

Lemma Play_started_then_finished_witness :
  Play Active player1 "sound:hello"
    (map SelEvent ([None; Some (evFinished "pb2")] ++ Some (evStarted "pb1")
                     :: [Some (evStarted "pb1")] ++ Some (evFinished "pb1") :: [None]))
    [SelTimer] PlayStopCh
  = Some {| returned := None;
            cancelled := [Cancel (pb (completed handle1 "pb1" false))] |}.
Proof.
  pose proof (Play_started_then_finished Active player1 "sound:hello" handle1
                {| ID := "pb1" |} [None; Some (evFinished "pb2")]
                [Some (evStarted "pb1")] [None] [SelTimer]
                eq_refl eq_refl eq_refl) as W.
  cbv zeta in W. destruct W as [W _]. exact W.
Defined.

(** ** The synchronous entry point *)

Lemma PlayAsync_spawned (p : Player) (mediaURI : string) (t0 : Tracker) :
  PlayAsync p mediaURI = Spawned t0 ->
  exists h data, play p mediaURI = inl h /\ Data h = inl data /\ t0 = spawn h data.
Proof.
  unfold PlayAsync. destruct (play p mediaURI) as [h|e]; [|discriminate].
  destruct (Data h) as [data|e] eqn:D; [|discriminate].
  intros E. injection E as <-. eauto.
Qed.

(** Once [stopCh] is closed the goroutine writes nothing more. *)
Lemma stopped_is_final h data (sched more : list Sel) :
  stopCh (pb (run sched (spawn h data))) = true ->
  run (sched ++ more) (spawn h data) = run sched (spawn h data).
Proof.
  intros S. rewrite run_app. apply run_ended.
  pose proof (spawn_states h data sched) as H.
  set (t := run sched (spawn h data)) in *. clearbody t.
  on_states H; cbn in S; try discriminate S; reflexivity.
Qed.

(** C6: what [Play] returns, case by case.  After a successful [PlayAsync]
    its select can take the stop case exactly when [stopCh] is closed, and
    [Play] then returns the error stored in the playback, which is the
    goroutine's final one (nil when none was stored); it can take the case of
    the context exactly when the context is done, and [Play] then returns the
    context's error.  On both returns the deferred [pb.Cancel()] has run,
    once, and the quit signal is set.  The stop case does become ready: on
    well-typed events the timer of the loop the goroutine is in, at the
    latest, closes [stopCh].  When [PlayAsync] fails there is no playback to
    cancel, and [Play] returns that error. *)
Theorem Play_returns
    (ctx : Context) (p : Player) (mediaURI : string) (sched later : list Sel) :
  match PlayAsync p mediaURI with
  | Failed _ e =>
      forall c, Play ctx p mediaURI sched later c
                = Some {| returned := Some e; cancelled := [] |}
  | Spawned t0 =>
      let t := run sched t0 in
      Play ctx p mediaURI sched later PlayStopCh
        = (if stopCh (pb t)
           then Some {| returned := err (pb t); cancelled := [Cancel (pb t)] |}
           else None) /\
      Play ctx p mediaURI sched later PlayCtxDone
        = match ctx with
          | Done e => Some {| returned := Some e; cancelled := [Cancel (pb t)] |}
          | Active => None
          end /\
      quitCh (Cancel (pb t)) = true /\
      (stopCh (pb t) = true ->
         forall more, err (pb (run (sched ++ more) t0)) = err (pb t)) /\
      (forallb selWellTyped sched = true ->
         stopCh (pb (run (sched ++ [SelTimer]) t0)) = true) /\
      (forall c out, Play ctx p mediaURI sched later c = Some out ->
         exists p', cancelled out = [Cancel p'] /\
                    Forall (fun x => quitCh x = true) (cancelled out))
  end.
Proof.
  destruct (PlayAsync p mediaURI) as [t0|l e] eqn:A.
  - destruct (PlayAsync_spawned p mediaURI t0 A) as [h [data [_ [_ ->]]]].
    cbv zeta.
    assert (F : forall more, stopCh (pb (run sched (spawn h data))) = true ->
                  run more (run sched (spawn h data)) = run sched (spawn h data)).
    { intros more S. rewrite <- run_app. exact (stopped_is_final h data sched more S). }
    assert (E1 : Play ctx p mediaURI sched later PlayStopCh
                 = if stopCh (pb (run sched (spawn h data)))
                   then Some {| returned := err (pb (run sched (spawn h data)));
                                cancelled := [Cancel (pb (run sched (spawn h data)))] |}
                   else None).
    { unfold Play. rewrite A. unfold StopCh, Err.
      destruct (stopCh (pb (run sched (spawn h data)))) eqn:S; [|reflexivity].
      rewrite (F later eq_refl). reflexivity. }
    assert (E2 : Play ctx p mediaURI sched later PlayCtxDone
                 = match ctx with
                   | Done e => Some {| returned := Some e;
                                       cancelled := [Cancel (pb (run sched (spawn h data)))] |}
                   | Active => None
                   end).
    { unfold Play. rewrite A. reflexivity. }
    split; [exact E1|]. split; [exact E2|]. split; [reflexivity|].
    split; [|split].
    + intros S more. rewrite run_app, (F more S). reflexivity.
    + intros W. rewrite run_app.
      pose proof (spawn_states h data sched) as H.
      pose proof (run_no_panic h (ID data) false sched W (spawn h data)
                    ltac:(rewrite spawn_waiting; in_states)
                    ltac:(intros c; cbn; discriminate)) as NP.
      set (t := run sched (spawn h data)) in *. clearbody t.
      on_states H; try reflexivity; exfalso; exact (NP _ eq_refl).
    + intros c out. destruct c.
      * rewrite E1. destruct (stopCh (pb (run sched (spawn h data)))); [|discriminate].
        intros E. injection E as <-. eexists. split; [reflexivity | repeat constructor].
      * rewrite E2. destruct ctx as [|e]; [discriminate|].
        intros E. injection E as <-. eexists. split; [reflexivity | repeat constructor].
  - intros c. unfold Play. rewrite A. reflexivity.
Qed.

Lemma Play_returns_witness :
  Play Active player1 "sound:hello"
    [SelEvent (Some (evStarted "pb1")); SelTimer] [SelQuit] PlayStopCh
  = Some {| returned := Some errStopTimeout;
            cancelled := [Cancel (pb (stopTimedOut handle1 "pb1" false))] |} /\
  Play (Done errNoChannel) player1 "sound:hello"
    [SelEvent (Some (evStarted "pb1"))] [] PlayCtxDone
  = Some {| returned := Some errNoChannel;
            cancelled := [Cancel (pb (playing handle1 "pb1" false))] |} /\
  err (pb (run ([SelEvent (Some (evStarted "pb1")); SelTimer] ++ [SelQuit])
             (spawn handle1 {| ID := "pb1" |}))) = Some errStopTimeout /\
  stopCh (pb (run ([SelEvent (Some (evStarted "pb1"))] ++ [SelTimer])
                (spawn handle1 {| ID := "pb1" |}))) = true /\
  (exists p',
     [Cancel (pb (stopTimedOut handle1 "pb1" false))] = [Cancel p'] /\
     Forall (fun x => quitCh x = true)
       [Cancel (pb (stopTimedOut handle1 "pb1" false))]).
Proof.
  pose proof (Play_returns Active player1 "sound:hello"
                [SelEvent (Some (evStarted "pb1")); SelTimer] [SelQuit]) as W1.
  pose proof (Play_returns (Done errNoChannel) player1 "sound:hello"
                [SelEvent (Some (evStarted "pb1"))] []) as W2.
  cbn [PlayAsync player1 play handle1 Data] in W1, W2. cbv zeta in W1, W2.
  destruct W1 as [A1 [_ [_ [A2 [_ A3]]]]].
  destruct W2 as [_ [B1 [_ [_ [B2 _]]]]].
  split; [exact A1|]. split; [exact B1|].
  split; [exact (A2 eq_refl [SelQuit])|].
  split; [exact (B2 eq_refl)|].
  exact (A3 PlayStopCh
           {| returned := Some errStopTimeout;
              cancelled := [Cancel (pb (stopTimedOut handle1 "pb1" false))] |}
           A1).
Defined.

(** ** Cancellation at the selects *)

(** A resolved select is one step of the goroutine on the value received;
    it does not touch [quitCh], which only [Cancel] closes. *)
Lemma select_step_tracker (w w' : World) (c : Case) :
  select_step w c = Some w' ->
  exists sel, proceeds w c = Some sel /\ trk w' = tracker_step sel (trk w).
Proof.
  unfold select_step. destruct (suspended (trk w)); [|discriminate].
  destruct (proceeds w c) as [sel|]; [|discriminate].
  intros E. injection E as <-. exists sel. split; reflexivity.
Qed.

Lemma select_step_states h i q (w w' : World) (c : Case) :
  In (trk w) (states h i q) -> select_step w c = Some w' ->
  In (trk w') (states h i q).
Proof.
  intros H E. destruct (select_step_tracker w w' c E) as [sel [_ ->]].
  apply step_states, H.
Qed.

(** C9, as stated, fails: with quit closed, the select may take the queued
    event and go on to the second loop, or take the elapsed timer and store
    the start-timeout error. *)
Lemma cancellation_does_not_preempt :
  let w1 := resume worldQuitAndEvent (SelEvent (Some (evStarted "pb1"))) in
  let w2 := resume worldQuitAndTimer SelTimer in
  (suspended (trk worldQuitAndEvent) = true /\
   quitCh (pb (trk worldQuitAndEvent)) = true /\
   select_step worldQuitAndEvent CaseEvent = Some w1 /\
   trk w1 = playing handle1 "pb1" true) /\
  (suspended (trk worldQuitAndTimer) = true /\
   quitCh (pb (trk worldQuitAndTimer)) = true /\
   select_step worldQuitAndTimer CaseTimer = Some w2 /\
   trk w2 = startTimedOut handle1 "pb1" true).
Proof. cbv zeta. repeat split. Qed.

(** C9, amended: both selects have the quit case.  For a goroutine in
    either loop with quit closed, the quit case can proceed, and taking it
    makes the goroutine return with both channels closed, no error stored
    and the queued events left unread; it is the case taken when no event is
    queued and the timer of the loop has not fired.  No case has precedence:
    each case that can proceed may be the one taken. *)
Theorem cancellation_is_a_case h i (w : World) :
  trk w = waiting h i true \/ trk w = playing h i true ->
  (exists w', select_step w CaseQuit = Some w' /\
     trk w' = completed h i true /\ inbox w' = inbox w) /\
  (proceeds w CaseEvent = None -> proceeds w CaseTimer = None ->
     forall c w', select_step w c = Some w' -> c = CaseQuit) /\
  (forall c sel, proceeds w c = Some sel -> select_step w c = Some (resume w sel)).
Proof.
  intros T.
  assert (S : suspended (trk w) = true) by (destruct T as [-> | ->]; reflexivity).
  assert (Q : quitCh (pb (trk w)) = true) by (destruct T as [-> | ->]; reflexivity).
  unfold select_step. rewrite S. repeat split.
  - unfold proceeds. rewrite Q. eexists. split; [reflexivity|].
    unfold resume. cbn [trk inbox]. split; [|reflexivity].
    destruct T as [-> | ->]; reflexivity.
  - intros NE NT c w' E. destruct c; [reflexivity| |].
    + rewrite NE in E. discriminate E.
    + rewrite NT in E. discriminate E.
  - intros c sel P. rewrite P. reflexivity.
Qed.

Lemma cancellation_is_a_case_witness :
  exists w', select_step worldQuitAndEvent CaseQuit = Some w' /\
    trk w' = completed handle1 "pb1" true /\ inbox w' = inbox worldQuitAndEvent.
Proof.
  exact (proj1 (cancellation_is_a_case handle1 "pb1" worldQuitAndEvent
                  (or_introl eq_refl))).
Defined.

(** ** Failed type assertions *)

(** C10, as stated, fails: in PlaybackStopLoop an event tagged
    PlaybackStarted whose dynamic type is another one takes the default
    branch; the goroutine keeps waiting and does not panic. *)
Lemma mistagged_started_ignored_while_playing :
  let t1 := run [SelEvent (Some (evStarted "pb1"))] (spawn handle1 {| ID := "pb1" |}) in
  mistagged evMistaggedStarted = true /\
  phase t1 = Playing /\
  tracker_step (SelEvent (Some evMistaggedStarted)) t1 = t1.
Proof. cbv zeta. repeat split. Qed.

(** C10, amended: an event whose tag is PlaybackStarted or PlaybackFinished
    and whose dynamic type is not the one the tag names makes the goroutine
    panic on the type assertion when it is received in PlaybackStartLoop,
    and, for the tag PlaybackFinished, when it is received in
    PlaybackStopLoop; an event tagged PlaybackStarted received in
    PlaybackStopLoop is ignored whatever its dynamic type.  The deferred
    calls run while panicking: the subscription is released, and in the
    second loop [stopCh] is closed. *)
Theorem mistagged_event_panics h i q (v : Event) :
  mistagged v = true ->
  tracker_step (SelEvent (Some v)) (waiting h i q) = brokenWaiting h i q /\
  (GetType v = "PlaybackFinished" ->
     tracker_step (SelEvent (Some v)) (playing h i q) = brokenPlaying h i q) /\
  (GetType v = "PlaybackStarted" ->
     tracker_step (SelEvent (Some v)) (playing h i q) = playing h i q) /\
  phase (brokenWaiting h i q) = Panicked FailedTypeAssertion /\
  phase (brokenPlaying h i q) = Panicked FailedTypeAssertion.
Proof.
  intros M. repeat split.
  - revert M. unfold mistagged. destruct v as [ty [d|d|]]; cbn; case_tags;
      try discriminate; reflexivity.
  - intros E. revert M. unfold mistagged. destruct v as [ty [d|d|]]; cbn in *;
      subst ty; cbn; try discriminate; reflexivity.
  - intros E. destruct v as [ty d]. cbn in *. subst ty. reflexivity.
Qed.

Lemma mistagged_event_panics_witness :
  tracker_step (SelEvent (Some evMistaggedStarted)) (waiting handle1 "pb1" false)
  = brokenWaiting handle1 "pb1" false.
Proof.
  exact (proj1 (mistagged_event_panics handle1 "pb1" false evMistaggedStarted eq_refl)).
Defined.

(** ** The invariants on sample schedules *)

Lemma stop_never_closes_first_witness :
  startCh (pb (run [SelEvent None; SelQuit] (spawn handle1 {| ID := "pb1" |}))) = true.
Proof.
  exact (proj1 (stop_never_closes_first handle1 {| ID := "pb1" |}
                  [SelEvent None; SelQuit]) eq_refl).
Defined.

Lemma channels_closed_once_witness :
  let t := run [SelEvent (Some (evStarted "pb1")); SelEvent (Some (evFinished "pb1"))]
             (spawn handle1 {| ID := "pb1" |}) in
  times ActCloseStart (log t) = 1 /\ times ActCloseStop (log t) = 1.
Proof.
  destruct (channels_closed_once handle1 {| ID := "pb1" |}
              [SelEvent (Some (evStarted "pb1")); SelEvent (Some (evFinished "pb1"))])
    as [_ [_ [_ [W _]]]].
  destruct (W eq_refl) as [W1 [W2 _]]. split; [exact W1 | exact W2].
Defined.

Lemma stored_errors_are_timeouts_witness :
  isTimeout errStopTimeout = true.
Proof.
  exact (proj1 (proj2 (stored_errors_are_timeouts handle1 {| ID := "pb1" |}
                         [SelEvent (Some (evStarted "pb1")); SelTimer])
                  errStopTimeout (or_introl eq_refl))).
Defined.

(** * Further properties of play.go *)

(** ** Quit in either loop *)

(** X1: in whichever loop the goroutine waits, the quit case makes it return
    at once: no error is stored, [startCh] and [stopCh] are both closed, in
    that order, and the subscription is released after them. *)
Theorem quit_returns_without_error h data (sched : list Sel) :
  let t := run sched (spawn h data) in
  suspended t = true ->
  let t' := tracker_step SelQuit t in
  phase t' = Returned /\ err (pb t') = None /\
  startCh (pb t') = true /\ stopCh (pb t') = true /\
  log t' = [ActSubscribe; ActCloseStart; ActCloseStop; ActSubCancel].
Proof.
  cbv zeta. pose proof (spawn_states h data sched) as H.
  set (t := run sched (spawn h data)) in *. clearbody t.
  intros S. on_states H; try discriminate S; cbn; repeat split.
Qed.

Lemma quit_returns_without_error_witness :
  let t' := tracker_step SelQuit
              (run [SelEvent (Some (evStarted "pb1")); SelEvent None]
                 (spawn handle1 {| ID := "pb1" |})) in
  phase t' = Returned /\ err (pb t') = None.
Proof.
  destruct (quit_returns_without_error handle1 {| ID := "pb1" |}
              [SelEvent (Some (evStarted "pb1")); SelEvent None] eq_refl)
    as [W1 [W2 _]].
  split; [exact W1 | exact W2].
Defined.

(** ** The stop timer *)

Lemma step_ignored_playing h i q (v : option Event) :
  unrelated i v || taggedStarted v = true ->
  tracker_step (SelEvent v) (playing h i q) = playing h i q.
Proof.
  intros U. apply orb_prop in U as [U|U].
  - exact (proj2 (step_unrelated h i q v U)).
  - destruct v as [[ty d]|]; [|discriminate U]. cbn in U.
    apply String.eqb_eq in U as ->. reflexivity.
Qed.

(** X2: once the playback has started, nil events, events of other
    playbacks, events of other types and any further event tagged
    PlaybackStarted leave the goroutine in PlaybackStopLoop with [startCh]
    closed, [stopCh] open and no error; when the stop timer then fires it
    stores the stop-timeout error, and only then closes [stopCh], releases
    the subscription and returns. *)
Theorem unrelated_events_until_stop_timeout h data
    (sched : list Sel) (evs : list (option Event)) :
  let t0 := spawn h data in
  phase (run sched t0) = Playing ->
  forallb (fun v => unrelated (ID data) v || taggedStarted v) evs = true ->
  let idle := run (sched ++ map SelEvent evs) t0 in
  let t := run (sched ++ map SelEvent evs ++ [SelTimer]) t0 in
  (phase idle = Playing /\ startCh (pb idle) = true /\
   stopCh (pb idle) = false /\ err (pb idle) = None) /\
  (phase t = Returned /\
   err (pb t) = Some errStopTimeout /\ isTimeout errStopTimeout = true /\
   stopCh (pb t) = true /\
   log t = [ActSubscribe; ActCloseStart; ActSetErr errStopTimeout; ActCloseStop;
            ActSubCancel]).
Proof.
  cbv zeta. intros P U. rewrite !run_app.
  pose proof (spawn_states h data sched) as H.
  set (t := run sched (spawn h data)) in *. clearbody t.
  on_states H; try discriminate P.
  assert (R : run (map SelEvent evs) (playing h (ID data) false)
              = playing h (ID data) false).
  { clear P. induction evs as [|v evs IH]; [reflexivity|].
    cbn [forallb map] in *. apply andb_prop in U as [U1 U2].
    rewrite run_cons, (step_ignored_playing h (ID data) false v U1). exact (IH U2). }
  rewrite R. repeat split.
Qed.

Lemma unrelated_events_until_stop_timeout_witness :
  err (pb (run ([SelEvent (Some (evStarted "pb1"))]
                  ++ map SelEvent (Some (evStarted "pb1") :: noise1) ++ [SelTimer])
             (spawn handle1 {| ID := "pb1" |})))
  = Some errStopTimeout.
Proof.
  destruct (unrelated_events_until_stop_timeout handle1 {| ID := "pb1" |}
              [SelEvent (Some (evStarted "pb1"))]
              (Some (evStarted "pb1") :: noise1) eq_refl eq_refl)
    as [_ [_ [W _]]].
  exact W.
Defined.

(** ** The stored error and the stop channel *)

Lemma noErrAfterStop_split (l : list Action) :
  forall stopped, noErrAfterStop stopped l = true ->
  forall before e after, l = before ++ ActSetErr e :: after ->
    stopped = false /\ ~ In ActCloseStop before.
Proof.
  induction l as [|a l IH]; intros stopped S before e after E.
  - destruct before; discriminate E.
  - destruct before as [|b before]; cbn in E; injection E as -> E.
    + cbn in S. apply andb_prop in S as [S _].
      split; [destruct stopped; [discriminate S | reflexivity] | intros []].
    + destruct b; cbn in S.
      * destruct (IH _ S _ _ _ E) as [I1 I2]. split; [exact I1|].
        intros [F|F]; [discriminate F | exact (I2 F)].
      * destruct (IH _ S _ _ _ E) as [I1 I2]. split; [exact I1|].
        intros [F|F]; [discriminate F | exact (I2 F)].
      * destruct (IH _ S _ _ _ E) as [I1 I2]. split; [exact I1|].
        intros [F|F]; [discriminate F | exact (I2 F)].
      * destruct (IH _ S _ _ _ E) as [I1 _]. discriminate I1.
      * apply andb_prop in S as [S1 S2].
        destruct (IH _ S2 _ _ _ E) as [I1 I2]. split; [exact I1|].
        intros [F|F]; [discriminate F | exact (I2 F)].
Qed.

(** X3: the goroutine assigns [pb.err] at most once and never after it has
    closed [stopCh]: wherever an assignment stands in the history, no close
    of [stopCh] precedes it, and the value assigned is the one the playback
    still holds.  Reading [pb.Err()] after [stopCh] is seen closed therefore
    reads the final error. *)
Theorem error_stored_before_stop_closes h data (sched : list Sel) :
  let t := run sched (spawn h data) in
  times (ActSetErr errStartTimeout) (log t) <= 1 /\
  (forall before e after, log t = before ++ ActSetErr e :: after ->
     ~ In ActCloseStop before /\ err (pb t) = Some e).
Proof.
  cbv zeta. pose proof (spawn_states h data sched) as H.
  set (t := run sched (spawn h data)) in *. clearbody t.
  split; [on_states H; cbn; auto|].
  intros before e after E.
  assert (S : noErrAfterStop false (log t) = true) by (on_states H; reflexivity).
  split; [exact (proj2 (noErrAfterStop_split _ _ S _ _ _ E))|].
  assert (I : In (ActSetErr e) (log t)) by (rewrite E; apply in_elt).
  on_states H; cbn in I; split_ior I; try discriminate I; try contradiction;
    injection I as <-; reflexivity.
Qed.

Lemma error_stored_before_stop_closes_witness :
  ~ In ActCloseStop [ActSubscribe; ActCloseStart] /\
  err (pb (run [SelEvent (Some (evStarted "pb1")); SelTimer]
             (spawn handle1 {| ID := "pb1" |}))) = Some errStopTimeout.
Proof.
  exact (proj2 (error_stored_before_stop_closes handle1 {| ID := "pb1" |}
                  [SelEvent (Some (evStarted "pb1")); SelTimer])
           [ActSubscribe; ActCloseStart] errStopTimeout
           [ActCloseStop; ActSubCancel] eq_refl).
Defined.

(** ** Where an error can come from *)

Lemma step_keeps_nil_error h i q (sel : Sel) (t : Tracker) :
  sel <> SelTimer -> In t (states h i q) ->
  err (pb t) = None -> err (pb (tracker_step sel t)) = None.
Proof.
  intros NT H E. on_states H; try discriminate E;
    try (rewrite step_ended by reflexivity; reflexivity).
  - destruct sel as [|[v|]|]; try reflexivity; [|congruence].
    pose proof (step_event_waiting h i q v) as S. cbv zeta in S.
    destruct S as [[_ ->] | [[_ ->] | [[_ ->] | [_ ->]]]]; reflexivity.
  - destruct sel as [|[v|]|]; try reflexivity; [|congruence].
    pose proof (step_event_playing h i q v) as S. cbv zeta in S.
    destruct S as [[_ ->] | [[_ ->] | [_ [_ ->]]]]; reflexivity.
Qed.

(** X4: only a timer makes the goroutine store an error: along a schedule in
    which no timer case is taken (events of any kind, well typed or not, and
    quit), [pb.err] stays nil and the history holds no assignment to it. *)
Theorem error_only_from_timer h data (sched : list Sel) :
  ~ In SelTimer sched ->
  let t := run sched (spawn h data) in
  err (pb t) = None /\ times (ActSetErr errStartTimeout) (log t) = 0.
Proof.
  intros NT. cbv zeta.
  assert (E : err (pb (run sched (spawn h data))) = None).
  { assert (G : forall t, In t (states h (ID data) false) -> err (pb t) = None ->
                  err (pb (run sched t)) = None).
    { induction sched as [|sel sched IH]; intros t H E; [exact E|].
      rewrite run_cons. apply IH.
      - intros F. apply NT. right. exact F.
      - apply step_states, H.
      - apply (step_keeps_nil_error h (ID data) false); auto.
        intros ->. apply NT. left. reflexivity. }
    apply G; [rewrite spawn_waiting; in_states | reflexivity]. }
  split; [exact E|].
  pose proof (spawn_states h data sched) as H.
  set (t := run sched (spawn h data)) in *. clearbody t.
  on_states H; try discriminate E; reflexivity.
Qed.

Lemma error_only_from_timer_witness :
  err (pb (run [SelEvent (Some evMistaggedStarted); SelQuit]
             (spawn handle1 {| ID := "pb1" |}))) = None.
Proof.
  refine (proj1 (error_only_from_timer handle1 {| ID := "pb1" |}
                   [SelEvent (Some evMistaggedStarted); SelQuit] _)).
  intros [F|[F|F]]; [discriminate F | discriminate F | exact F].
Defined.

(** ** Events that change the state *)

(** X5: a well-typed event changes the state of the goroutine only if it
    carries the identifier of the playback: in PlaybackStartLoop only its
    PlaybackStarted and PlaybackFinished events do, in PlaybackStopLoop only
    its PlaybackFinished event; in particular a second PlaybackStarted of
    the playback is ignored once it plays. *)
Theorem only_own_events_change_state h data (sched : list Sel) (v : option Event) :
  wellTyped v = true ->
  let t := run sched (spawn h data) in
  tracker_step (SelEvent v) t <> t ->
  (phase t = AwaitingStart /\
     (v = Some (evStarted (ID data)) \/ v = Some (evFinished (ID data)))) \/
  (phase t = Playing /\ v = Some (evFinished (ID data))).
Proof.
  intros W. cbv zeta. pose proof (spawn_states h data sched) as H.
  set (t := run sched (spawn h data)) in *. clearbody t.
  intros N.
  destruct (step_wellTyped h (ID data) false v W) as [S1 S2].
  on_states H; try (exfalso; apply N; apply step_ended; reflexivity).
  - left. split; [reflexivity|].
    destruct S1 as [S1 | [[S1 _] | [S1 _]]]; auto. contradiction.
  - right. split; [reflexivity|].
    destruct S2 as [S2 | [S2 _]]; auto. contradiction.
Qed.

Lemma only_own_events_change_state_witness :
  (phase (run [SelEvent None] (spawn handle1 {| ID := "pb1" |})) = AwaitingStart /\
     (Some (evStarted "pb1") = Some (evStarted "pb1") \/
      Some (evStarted "pb1") = Some (evFinished "pb1"))) \/
  (phase (run [SelEvent None] (spawn handle1 {| ID := "pb1" |})) = Playing /\
     Some (evStarted "pb1") = Some (evFinished "pb1")).
Proof.
  refine (only_own_events_change_state handle1 {| ID := "pb1" |} [SelEvent None]
            (Some (evStarted "pb1")) eq_refl _).
  cbn. discriminate.
Defined.

(** ** Subscription and stop channel *)

(** X6: the release of the subscription is the last thing the goroutine does:
    once it has left its loops the history ends with the one [s.Cancel()],
    and when it returned the close of [stopCh] stands before it, so a waiter
    on [stopCh] can run before the subscription is released. *)
Theorem subscription_released_last h data (sched : list Sel) :
  let t := run sched (spawn h data) in
  suspended t = false ->
  exists l, log t = l ++ [ActSubCancel] /\ ~ In ActSubCancel l /\
            (phase t = Returned -> In ActCloseStop l).
Proof.
  cbv zeta. pose proof (spawn_states h data sched) as H.
  set (t := run sched (spawn h data)) in *. clearbody t.
  intros S. exists (removelast (log t)).
  on_states H; try discriminate S; cbn; (split; [reflexivity | split]);
    try (intros F; split_ior F; try discriminate F; contradiction);
    try discriminate; intros _; auto 6.
Qed.

Lemma subscription_released_last_witness :
  exists l,
    log (run [SelTimer] (spawn handle1 {| ID := "pb1" |})) = l ++ [ActSubCancel] /\
    ~ In ActSubCancel l /\
    (phase (run [SelTimer] (spawn handle1 {| ID := "pb1" |})) = Returned ->
     In ActCloseStop l).
Proof.
  exact (subscription_released_last handle1 {| ID := "pb1" |} [SelTimer] eq_refl).
Defined.

(** ** Play and the setup *)

(** X7: an error of [p.Play] or of [h.Data] is what [Play] returns, whatever
    the state of the context (also when it is already done) and whichever
    case is asked of its select: the subscription was opened and released,
    no goroutine runs and no [pb.Cancel()] is deferred. *)
Theorem Play_returns_setup_error
    (ctx : Context) (p : Player) (mediaURI : string)
    (sched later : list Sel) (c : PlayCase) (e : error) :
  play p mediaURI = inr e \/
  (exists h, play p mediaURI = inl h /\ Data h = inr e) ->
  PlayAsync p mediaURI = Failed [ActSubscribe; ActSubCancel] e /\
  Play ctx p mediaURI sched later c = Some {| returned := Some e; cancelled := [] |}.
Proof.
  intros F.
  assert (A : PlayAsync p mediaURI = Failed [ActSubscribe; ActSubCancel] e).
  { unfold PlayAsync. destruct F as [-> | [h [-> ->]]]; reflexivity. }
  split; [exact A|]. unfold Play. rewrite A. reflexivity.
Qed.

Lemma Play_returns_setup_error_witness :
  Play (Done errNoChannel) playerNoData "sound:hello" [] [] PlayCtxDone
  = Some {| returned := Some errNoChannel; cancelled := [] |}.
Proof.
  refine (proj2 (Play_returns_setup_error (Done errNoChannel) playerNoData
                   "sound:hello" [] [] PlayCtxDone errNoChannel _)).
  right. eexists. split; reflexivity.
Defined.

(** ** What a nil result of Play means *)

Lemma step_to_completed h i q (sel : Sel) (t : Tracker) :
  In t (states h i q) -> t <> completed h i q ->
  tracker_step sel t = completed h i q ->
  sel = SelQuit \/ sel = SelEvent (Some (evFinished i)).
Proof.
  intros H N E. on_states H; try contradiction;
    try (rewrite step_ended in E by reflexivity; discriminate E).
  - destruct sel as [|[v|]|]; auto; try discriminate E.
    pose proof (step_event_waiting h i q v) as S. cbv zeta in S. rewrite E in S.
    destruct S as [[_ S] | [[_ S] | [[-> _] | [_ S]]]]; auto; discriminate S.
  - destruct sel as [|[v|]|]; auto; try discriminate E.
    pose proof (step_event_playing h i q v) as S. cbv zeta in S. rewrite E in S.
    destruct S as [[_ S] | [[-> _] | [_ [_ S]]]]; auto; discriminate S.
Qed.

Lemma run_to_completed h i q (sched : list Sel) :
  forall t, In t (states h i q) -> t <> completed h i q ->
  ~ In SelQuit sched -> run sched t = completed h i q ->
  In (SelEvent (Some (evFinished i))) sched.
Proof.
  induction sched as [|sel sched IH]; intros t H N NQ E; [contradiction|].
  rewrite run_cons in E.
  pose proof (step_states h i q sel t H) as H'.
  pose proof (step_to_completed h i q sel t H N) as C.
  remember (tracker_step sel t) as t' eqn:T.
  assert (NQ' : ~ In SelQuit sched) by (intros F; apply NQ; right; exact F).
  assert (K : t' = completed h i q \/ t' <> completed h i q).
  { clear - H'. on_states H'; auto; right; discriminate. }
  destruct K as [K|K].
  - destruct (C K) as [-> | ->].
    + exfalso. apply NQ. left. reflexivity.
    + left. reflexivity.
  - right. exact (IH t' H' K NQ' E).
Qed.

(** X8: when [Play] returns nil on well-typed events, its select took the
    stop case and the goroutine had received the PlaybackFinished event of
    the playback: nothing else makes it return nil, since quit is closed by
    nobody before [Play] returns and a timer stores an error. *)
Theorem Play_nil_means_finished
    (ctx : Context) (p : Player) (mediaURI : string)
    (sched later : list Sel) (c : PlayCase) (out : PlayOutcome) :
  forallb selWellTyped sched = true ->
  ~ In SelQuit sched ->
  Play ctx p mediaURI sched later c = Some out ->
  returned out = None ->
  exists h data,
    play p mediaURI = inl h /\ Data h = inl data /\ c = PlayStopCh /\
    In (SelEvent (Some (evFinished (ID data)))) sched.
Proof.
  intros W NQ. unfold Play.
  destruct (PlayAsync p mediaURI) as [t0|l e] eqn:A.
  - destruct (PlayAsync_spawned p mediaURI t0 A) as [h [data [P [D ->]]]].
    destruct c.
    + destruct (StopCh (pb (run sched (spawn h data)))) eqn:S; [|discriminate].
      unfold StopCh in S. rewrite <- run_app.
      rewrite (stopped_is_final h data sched later S).
      intros E R. injection E as <-. cbn in R. unfold Err in R.
      exists h, data. repeat split; auto.
      pose proof (spawn_states h data sched) as H.
      pose proof (run_no_panic h (ID data) false sched W (spawn h data)) as NP.
      apply (run_to_completed h (ID data) false sched (spawn h data)); auto.
      * rewrite spawn_waiting. in_states.
      * discriminate.
      * set (t := run sched (spawn h data)) in *. clearbody t.
        on_states H; cbn in S, R; try discriminate S; try discriminate R;
          [reflexivity|].
        exfalso. apply (NP ltac:(rewrite spawn_waiting; in_states)
                           ltac:(intros c; cbn; discriminate)
                           FailedTypeAssertion).
        reflexivity.
    + destruct ctx as [|e]; [discriminate|].
      intros E R. injection E as <-. discriminate R.
  - intros E R. injection E as <-. discriminate R.
Qed.

Lemma Play_nil_means_finished_witness :
  exists h data,
    play player1 "sound:hello" = inl h /\ Data h = inl data /\
    PlayStopCh = PlayStopCh /\
    In (SelEvent (Some (evFinished (ID data))))
       [SelEvent (Some (evStarted "pb1")); SelEvent (Some (evFinished "pb1"))].
Proof.
  refine (Play_nil_means_finished Active player1 "sound:hello"
            [SelEvent (Some (evStarted "pb1")); SelEvent (Some (evFinished "pb1"))]
            [] PlayStopCh
            {| returned := None;
               cancelled := [Cancel (pb (completed handle1 "pb1" false))] |}
            eq_refl _ eq_refl eq_refl).
  intros [F|[F|F]]; [discriminate F | discriminate F | exact F].
Defined.

(** ** Stop case and context case both ready *)

(** X9: [Play] gives no precedence to a playback that has ended over a
    context that is done: with [stopCh] closed and the context done, its
    select can take the stop case and return the stored error, or take the
    context case and return the context's error; either way [pb.Cancel()]
    runs. *)
Theorem Play_either_when_both_ready
    (p : Player) (mediaURI : string) (t0 : Tracker)
    (sched later : list Sel) (e : error) :
  PlayAsync p mediaURI = Spawned t0 ->
  stopCh (pb (run sched t0)) = true ->
  let t := run sched t0 in
  Play (Done e) p mediaURI sched later PlayStopCh
    = Some {| returned := err (pb t); cancelled := [Cancel (pb t)] |} /\
  Play (Done e) p mediaURI sched later PlayCtxDone
    = Some {| returned := Some e; cancelled := [Cancel (pb t)] |}.
Proof.
  intros A S. cbv zeta. unfold Play. rewrite A.
  destruct (PlayAsync_spawned p mediaURI t0 A) as [h [data [_ [_ ->]]]].
  unfold StopCh, Err. rewrite S. rewrite <- run_app.
  rewrite (stopped_is_final h data sched later S). split; reflexivity.
Qed.

Lemma Play_either_when_both_ready_witness :
  Play (Done errNoChannel) player1 "sound:hello"
    [SelEvent (Some (evFinished "pb1"))] [] PlayCtxDone
  = Some {| returned := Some errNoChannel;
            cancelled := [Cancel (pb (completed handle1 "pb1" false))] |}.
Proof.
  exact (proj2 (Play_either_when_both_ready player1 "sound:hello"
                  (spawn handle1 {| ID := "pb1" |})
                  [SelEvent (Some (evFinished "pb1"))] [] errNoChannel
                  eq_refl eq_refl)).
Defined.

(** ** The stop timer is armed at the start of the playback *)

(** X10: the stop timer counts from the instant the goroutine receives the
    PlaybackStarted event of the playback, not from its own start: after that
    step the timer case cannot proceed until [MaxPlaybackTime] has passed,
    and can from then on, however long the start took and even if the start
    timer had elapsed by then. *)
Theorem stop_timer_counts_from_start h i q (w : World) (rest : list (option Event)) :
  trk w = waiting h i q ->
  inbox w = Some (evStarted i) :: rest ->
  exists w',
    select_step w CaseEvent = Some w' /\
    trk w' = playing h i q /\ inbox w' = rest /\
    forall d, proceeds (elapse d w') CaseTimer
              = if (MaxPlaybackTime <=? d)%N then Some SelTimer else None.
Proof.
  intros T I. eexists. split.
  - unfold select_step, proceeds. rewrite T, I. cbn [suspended waiting state phase].
    reflexivity.
  - unfold resume. cbn [trk inbox now stopTimer elapse]. rewrite T, I.
    assert (P : tracker_step (SelEvent (Some (evStarted i))) (waiting h i q)
                = playing h i q).
    { cbn. rewrite String.eqb_refl. reflexivity. }
    rewrite P. repeat split.
    intros d. unfold proceeds, elapse. cbn [trk phase playing state now stopTimer waiting].
    generalize MaxPlaybackTime. intros m.
    destruct (N.leb_spec m d) as [L|L];
      destruct (N.leb_spec (now w + m) (now w + d)) as [L'|L']; try reflexivity; lia.
Qed.

Lemma stop_timer_counts_from_start_witness :
  exists w',
    select_step worldLateStart CaseEvent = Some w' /\
    trk w' = playing handle1 "pb1" false /\ inbox w' = [] /\
    forall d, proceeds (elapse d w') CaseTimer
              = if (MaxPlaybackTime <=? d)%N then Some SelTimer else None.
Proof.
  exact (stop_timer_counts_from_start handle1 "pb1" false worldLateStart []
           eq_refl eq_refl).
Defined.

(** ** The start timer is armed when the goroutine starts *)

(** X11: a goroutine to which no event is delivered and whose playback
    nobody cancels blocks at its first select until [PlaybackStartTimeout]
    has passed since it started: before that no case can proceed; from then
    on the timer case, and only it, can, and taking it ends the goroutine
    with the start-timeout error. *)
Theorem start_timer_counts_from_spawn h data (clock d : N) (c : Case) :
  let w := elapse d (boot (spawn h data) clock) in
  select_step w c
    = (if (PlaybackStartTimeout <=? d)%N then
         match c with
         | CaseTimer => Some (resume w SelTimer)
         | _ => None
         end
       else None) /\
  trk (resume w SelTimer) = startTimedOut h (ID data) false.
Proof.
  cbv zeta. split; [|reflexivity].
  unfold select_step, proceeds, elapse, boot.
  cbn [trk inbox now startTimer suspended spawn phase pb quitCh].
  generalize PlaybackStartTimeout. intros m.
  destruct (N.leb_spec m d) as [L|L];
    destruct (N.leb_spec (clock + m) (clock + d)) as [L'|L']; try lia;
    destruct c; reflexivity.
Qed.
